(** * AHP survey engine (google-apps-script.js): a shallow embedding

    The script receives a survey submission, builds one pairwise-comparison
    matrix per group, derives the priority weights by the geometric-mean
    method and computes the consistency ratio CR.

    JavaScript numbers are IEEE 754 binary64 values, so the embedding runs on
    Rocq's primitive floats.  The engine itself is written once, over an
    interface [Arith] of the arithmetic the script uses; it is instantiated
    with binary64 (what the script computes) and with the real numbers (the
    arithmetic the script approximates). *)

From Stdlib Require Import ZArith QArith Floats Reals Lra Lia.
From Stdlib Require Import Strings.String Strings.Ascii.
From stdpp Require Import base option list strings gmap sorting.

Set Warnings "-inexact-float,-clear-no-such-hyp".

(** ** The arithmetic of the script *)

Class Arith := {
  num : Type;
  nlit : Q -> num;                (* a numeric literal of the source *)
  nadd : num -> num -> num;       (* a + b *)
  nsub : num -> num -> num;       (* a - b *)
  nmul : num -> num -> num;       (* a * b *)
  ndiv : num -> num -> num;       (* a / b *)
  npow : num -> num -> num;       (* Math.pow(a, b) *)
  nround : num -> num;            (* Math.round(a) *)
  nltb : num -> num -> bool;      (* a < b *)
  ntruthy : num -> bool;          (* ToBoolean(a), as tested by || *)
  nundef : num                    (* what arithmetic makes of undefined *)
}.

Declare Scope num_scope.
Delimit Scope num_scope with num.
Notation "a + b" := (nadd a b) : num_scope.
Notation "a - b" := (nsub a b) : num_scope.
Notation "a * b" := (nmul a b) : num_scope.
Notation "a / b" := (ndiv a b) : num_scope.
Notation "a <? b" := (nltb a b) : num_scope.

Definition of_nat `{N : Arith} (n : nat) : num := nlit (inject_Z (Z.of_nat n)).

(** ** binary64: the numbers of JavaScript *)

Module JSNumber.

Definition of_Z (z : Z) : float :=
  match z with
  | Zneg p => PrimFloat.opp (PrimFloat.of_uint63 (Uint63.of_Z (Zpos p)))
  | _ => PrimFloat.of_uint63 (Uint63.of_Z z)
  end.

(** A literal [p/q] denotes the binary64 value nearest to it: the correctly
    rounded quotient of two integers that are exact in binary64. *)
Definition literal (q : Q) : float :=
  PrimFloat.div (of_Z (Qnum q)) (of_Z (Zpos (Qden q))).

(** ToBoolean on a Number: false for +0, -0 and NaN. *)
Definition truthy (x : float) : bool :=
  negb (PrimFloat.is_zero x || PrimFloat.is_nan x).

(** Math.round: the integer nearest to [x], ties towards +Infinity; the sign
    of zero is kept for results in [-0.5, -0]. *)
Definition Math_round (x : float) : float :=
  match Prim2SF x with
  | S754_finite s m e =>
      if (0 <=? e)%Z then x
      else
        let v := if s then Zneg m else Zpos m in
        let k := Z.shiftr (2 * v + 2 ^ (- e)) (1 - e) in
        if (k =? 0)%Z then (if s then PrimFloat.neg_zero else PrimFloat.zero)
        else of_Z k
  | _ => x
  end.

(** *** Math.pow

    ECMAScript (Number::exponentiate) fixes the result for NaN, zero and
    infinite operands and for a negative base with a fractional exponent;
    everywhere else the result is "implementation-approximated".  [Math_pow]
    takes that last part from the host as [approx]. *)

Definition is_integral (x : float) : bool :=
  match Prim2SF x with
  | S754_zero _ => true
  | S754_finite _ m e => (0 <=? e)%Z || (Zpos m mod 2 ^ (- e) =? 0)%Z
  | _ => false
  end.

Definition is_odd_integral (x : float) : bool :=
  match Prim2SF x with
  | S754_finite _ m e =>
      if (0 <? e)%Z then false
      else (Zpos m mod 2 ^ (- e) =? 0)%Z && Z.odd (Zpos m / 2 ^ (- e))
  | _ => false
  end.

Definition Math_pow (approx : float -> float -> float)
    (base exponent : float) : float :=
  let up := PrimFloat.ltb PrimFloat.zero exponent in
  let odd := is_odd_integral exponent in
  if PrimFloat.is_nan exponent then PrimFloat.nan
  else if PrimFloat.is_zero exponent then PrimFloat.one
  else if PrimFloat.is_nan base then PrimFloat.nan
  else if PrimFloat.eqb base PrimFloat.infinity then
    if up then PrimFloat.infinity else PrimFloat.zero
  else if PrimFloat.eqb base PrimFloat.neg_infinity then
    if up then (if odd then PrimFloat.neg_infinity else PrimFloat.infinity)
    else (if odd then PrimFloat.neg_zero else PrimFloat.zero)
  else if PrimFloat.is_zero base then
    if PrimFloat.get_sign base then
      if up then (if odd then PrimFloat.neg_zero else PrimFloat.zero)
      else (if odd then PrimFloat.neg_infinity else PrimFloat.infinity)
    else
      if up then PrimFloat.zero else PrimFloat.infinity
  else if PrimFloat.is_infinity exponent then
    if PrimFloat.eqb (PrimFloat.abs base) PrimFloat.one then PrimFloat.nan
    else if Bool.eqb (PrimFloat.ltb PrimFloat.one (PrimFloat.abs base)) up
         then PrimFloat.infinity else PrimFloat.zero
  else if PrimFloat.ltb base PrimFloat.zero && negb (is_integral exponent)
  then PrimFloat.nan
  else approx base exponent.

(** *** A reference host

    A host's pow for finite operands, computed as [2 ^ (y * log2 x)] in
    fixed point with [fbits] fractional bits and rounded once, to nearest
    even, into binary64. *)

Definition fbits : Z := 192.
Definition fone : Z := Z.shiftl 1 fbits.
Definition fmul (a b : Z) : Z := Z.shiftr (a * b) fbits.
Definition fdiv (a b : Z) : Z := (Z.shiftl a fbits / b)%Z.

Fixpoint atanh_series (fuel : nat) (t2 term k acc : Z) : Z :=
  match fuel with
  | O => acc
  | S fuel' =>
      atanh_series fuel' t2 (fmul term t2) (k + 2)%Z (acc + term / k)%Z
  end.

(** [ln r] for [r] in [1, 2], as [2 * atanh ((r - 1) / (r + 1))]. *)
Definition ln_fix (r : Z) : Z :=
  let t := fdiv (r - fone) (r + fone) in
  (2 * atanh_series 70 (fmul t t) t 1 0)%Z.

Definition ln2_fix : Z := Eval vm_compute in ln_fix (2 * fone).

Fixpoint exp_series (fuel : nat) (u term i acc : Z) : Z :=
  match fuel with
  | O => acc
  | S fuel' =>
      exp_series fuel' u (fmul term u / i)%Z (i + 1)%Z (acc + term)%Z
  end.

Definition exp_fix (u : Z) : Z := exp_series 60 u fone 1 0.

Definition log2_fix (m : positive) (e : Z) : Z :=
  let d := Z.log2 (Zpos m) in
  ((e + d) * fone + fdiv (ln_fix (Z.shiftl (Zpos m) (fbits - d))) ln2_fix)%Z.

Definition pow_magnitude (mx : positive) (ex : Z)
    (sy : bool) (my : positive) (ey : Z) : spec_float :=
  let y := if sy then Zneg my else Zpos my in
  let z := Z.shiftl (y * log2_fix mx ex) ey in
  let k := Z.shiftr z fbits in
  let f := (z - Z.shiftl k fbits)%Z in
  if (1100 <? k)%Z then S754_infinity false
  else if (k <? -1200)%Z then S754_zero false
  else binary_normalize prec emax (exp_fix (fmul f ln2_fix)) (k - fbits) false.

Definition pow_ref (x y : float) : float :=
  match Prim2SF x, Prim2SF y with
  | S754_finite sx mx ex, S754_finite sy my ey =>
      let r := SF2Prim (pow_magnitude mx ex sy my ey) in
      if sx && is_odd_integral y then PrimFloat.opp r else r
  | _, _ => PrimFloat.nan
  end.

Definition arith (approx : float -> float -> float) : Arith := {|
  num := float;
  nlit := literal;
  nadd := PrimFloat.add;
  nsub := PrimFloat.sub;
  nmul := PrimFloat.mul;
  ndiv := PrimFloat.div;
  npow := Math_pow approx;
  nround := Math_round;
  nltb := PrimFloat.ltb;
  ntruthy := truthy;
  nundef := PrimFloat.nan
|}.

End JSNumber.

(** ** The real numbers: the arithmetic binary64 approximates

    No rounding, overflow or underflow.  [Math.pow] is read as the real power
    of a positive base; on the other bases (which the engine meets only when
    a ratio is not positive) the value 0 stands in. *)

Module Exact.

Definition pow (x y : R) : R := if Rlt_dec 0 x then Rpower x y else 0%R.
Definition round (x : R) : R := IZR (Int_part (x + / 2)).
Definition ltb (x y : R) : bool := if Rlt_dec x y then true else false.
Definition truthy (x : R) : bool := if Req_dec_T x 0 then false else true.

Definition arith : Arith := {|
  num := R;
  nlit := Q2R;
  nadd := Rplus;
  nsub := Rminus;
  nmul := Rmult;
  ndiv := Rdiv;
  npow := pow;
  nround := round;
  nltb := ltb;
  ntruthy := truthy;
  nundef := 0%R
|}.

End Exact.

(** ** Data *)

(** Item identifiers are strings; [Array.prototype.sort] without a comparator
    orders them by code units, which is [String.leb]. *)
Definition id_le (a b : string) : Prop := String.leb a b = true.

#[export] Instance id_le_dec (a b : string) : Decision (id_le a b) :=
  decide (String.leb a b = true).

(** An exception of the script. *)
Inductive error := TypeError | SyntaxError.

Inductive outcome (A : Type) :=
  | Return (a : A)
  | Throw (e : error).
Arguments Return {A} a.
Arguments Throw {A} e.

Section Data.
Context {T : Type}.

(** One judgment record [{ left, right, ahp_ratio_aij }]; a ratio that is
    [null] or missing is [None]. *)
Record comparison := Comparison {
  left : string;
  right : string;
  ahp_ratio_aij : option T
}.

Record submission := Submission {
  meta : gmap string string;
  comparisons : option (gmap string (list comparison))
}.

(** What [calculateCR] returns. *)
Record consistency := Consistency {
  cr_lambdaMax : T;
  cr_CI : T;
  cr_CR : T
}.

(** One entry of [results]. *)
Record section_result := SectionResult {
  n : nat;
  weights : gmap string T;
  lambdaMax : T;
  CI : T;
  CR : T;
  consistent : bool
}.

(** The spreadsheet, kept as the two logs the script appends to. *)
Record spreadsheet := Spreadsheet {
  raw_rows : list submission;
  result_rows : list (submission * gmap string section_result)
}.

(** The JSON answer of [doPost]: [{ ok: true, results }] or
    [{ ok: false, error }]. *)
Inductive response :=
  | Ok (results : gmap string section_result)
  | Failed (err : error).

End Data.
Arguments comparison : clear implicits.
Arguments submission : clear implicits.
Arguments consistency : clear implicits.
Arguments section_result : clear implicits.
Arguments spreadsheet : clear implicits.
Arguments response : clear implicits.

Section Engine.
Context `{N : Arith}.
Local Open Scope num_scope.

(** *** Random Index (Saaty) *)

Definition RI (n : nat) : option num :=
  match n with
  | 1 => Some (nlit 0) | 2 => Some (nlit 0)
  | 3 => Some (nlit 0.58) | 4 => Some (nlit 0.90)
  | 5 => Some (nlit 1.12) | 6 => Some (nlit 1.24)
  | 7 => Some (nlit 1.32) | 8 => Some (nlit 1.41)
  | 9 => Some (nlit 1.45) | 10 => Some (nlit 1.49)
  | 11 => Some (nlit 1.51) | 12 => Some (nlit 1.48)
  | 13 => Some (nlit 1.56) | 14 => Some (nlit 1.57)
  | 15 => Some (nlit 1.59) | 16 => Some (nlit 1.60)
  | _ => None
  end.

(** *** Arrays *)

(** [matrix[i][j]] as a lookup, and the assignment [matrix[i][j] = v] (the
    script only assigns inside the bounds). *)
Definition cell {A} (matrix : list (list A)) (i j : nat) : option A :=
  matrix !! i ≫= (.!! j).

Definition set_cell {A} (i j : nat) (v : A) (matrix : list (list A)) :
    list (list A) :=
  alter (<[j := v]>) i matrix.

(** A read that feeds arithmetic.  Outside the bounds JavaScript reads
    [undefined]; the script never does, its matrix being [n] by [n] and its
    vectors of length [n]. *)
Definition entry (matrix : list (list num)) (i j : nat) : num :=
  default nundef (cell matrix i j).

Definition item (v : list num) (i : nat) : num := default nundef (v !! i).

(** [ids.indexOf(x)]; [None] is -1. *)
Fixpoint indexOf (ids : list string) (x : string) : option nat :=
  match ids with
  | [] => None
  | y :: ids' => if decide (y = x) then Some 0 else S <$> indexOf ids' x
  end.

(** [[...new Set(l)]]: the first occurrence of each element, in order. *)
Fixpoint uniq (l : list string) : list string :=
  match l with
  | [] => []
  | x :: l' => x :: filter (λ y, y ≠ x) (uniq l')
  end.

(** *** buildMatrix *)

(** The identity matrix with [null] ([None]) off the diagonal. *)
Definition initial (n : nat) : list (list (option num)) :=
  (λ i, (λ j, if Nat.eqb i j then Some (nlit 1) else None) <$> seq 0 n)
    <$> seq 0 n.

(** The body of the loop over the comparisons. *)
Definition enter (ids : list string) (matrix : list (list (option num)))
    (comp : comparison num) : list (list (option num)) :=
  match indexOf ids (left comp), indexOf ids (right comp),
        ahp_ratio_aij comp with
  | Some i, Some j, Some ratio =>
      set_cell j i (Some (nlit 1 / ratio)) (set_cell i j (Some ratio) matrix)
  | _, _, _ => matrix
  end.

Definition fill (matrix : list (list (option num))) : list (list num) :=
  (λ row : list (option num), default (nlit 1) <$> row) <$> matrix.

Definition buildMatrix (ids : list string)
    (comparisons : list (comparison num)) : list (list num) :=
  fill (foldl (enter ids) (initial (length ids)) comparisons).

(** *** calculateWeights *)

Definition calculateWeights (matrix : list (list num)) (n : nat) : list num :=
  let geoMeans :=
    (λ i, let product :=
            foldl (λ product j, product * entry matrix i j) (nlit 1) (seq 0 n)
          in npow product (nlit 1 / of_nat n)) <$> seq 0 n in
  let sum := foldl (λ a b, a + b) (nlit 0) geoMeans in
  (λ g, g / sum) <$> geoMeans.

(** *** calculateCR *)

Definition calculateCR (matrix : list (list num)) (weights : list num)
    (n : nat) : consistency num :=
  let Aw :=
    (λ i, foldl (λ sum j, sum + entry matrix i j * item weights j)
            (nlit 0) (seq 0 n)) <$> seq 0 n in
  let lambdaMax :=
    foldl (λ lambdaMax i, lambdaMax + item Aw i / item weights i)
      (nlit 0) (seq 0 n) / of_nat n in
  let CI := (lambdaMax - of_nat n) / (of_nat n - nlit 1) in
  let ri :=
    match RI n with
    | Some r => if ntruthy r then r else nlit 1.5
    | None => nlit 1.5
    end in
  let CR := if nlit 0 <? ri then CI / ri else nlit 0 in
  Consistency lambdaMax CI CR.

(** *** calculateAHP *)

Definition sections : list string :=
  ["dimensions"; "A"; "B"; "C"; "D"]%string.

Definition round4 (x : num) : num := nround (x * nlit 10000) / nlit 10000.

Definition item_ids (comparisons : list (comparison num)) : list string :=
  merge_sort id_le (uniq (comparisons ≫= λ c, [left c; right c])).

(** The body of the loop over the sections, for a non-empty list. *)
Definition evaluate (comparisons : list (comparison num)) :
    section_result num :=
  let ids := item_ids comparisons in
  let n := length ids in
  let matrix := buildMatrix ids comparisons in
  let weights := calculateWeights matrix n in
  let '(Consistency lambdaMax CI CR) := calculateCR matrix weights n in
  let weightMap :=
    foldl (λ (weightMap : gmap string num) '(i, id),
             <[id := round4 (item weights i)]> weightMap)
      ∅ (zip (seq 0 n) ids) in
  SectionResult n weightMap (round4 lambdaMax) (round4 CI) (round4 CR)
    (CR <? nlit 0.1).

Fixpoint calculateAHP_loop (data : submission num) (todo : list string)
    (results : gmap string (section_result num)) :
    outcome (gmap string (section_result num)) :=
  match todo with
  | [] => Return results
  | section :: todo' =>
      match comparisons data with
      | None => Throw TypeError
      | Some block =>
          match block !! section with
          | None | Some [] => calculateAHP_loop data todo' results
          | Some comparisons =>
              calculateAHP_loop data todo'
                (<[section := evaluate comparisons]> results)
          end
      end
  end.

Definition calculateAHP (data : submission num) :
    outcome (gmap string (section_result num)) :=
  calculateAHP_loop data sections ∅.

(** *** doPost

    The request body arrives parsed, [None] when [JSON.parse] throws.  Of
    the two sheets only the order of the appended rows is kept, not their
    columns. *)

Definition saveRawData (ss : spreadsheet num) (data : submission num) :
    spreadsheet num :=
  Spreadsheet (raw_rows ss ++ [data]) (result_rows ss).

Definition saveResults (ss : spreadsheet num) (data : submission num)
    (results : gmap string (section_result num)) : spreadsheet num :=
  Spreadsheet (raw_rows ss) (result_rows ss ++ [(data, results)]).

Definition doPost (body : option (submission num)) (ss : spreadsheet num) :
    response num * spreadsheet num :=
  match body with
  | None => (Failed SyntaxError, ss)
  | Some data =>
      let ss := saveRawData ss data in
      match calculateAHP data with
      | Return results => (Ok results, saveResults ss data results)
      | Throw err => (Failed err, ss)
      end
  end.

End Engine.

(** The script on a host whose pow is [JSNumber.pow_ref]. *)
Definition reference : Arith := JSNumber.arith JSNumber.pow_ref.

(** Unless a statement names another arithmetic, binary64 data is run on
    the reference host and real data in exact arithmetic. *)
Canonical Structure reference.
Canonical Structure Exact.arith.

(** ** Vocabulary of the statements *)

Section Judgments.
Context {T : Type}.

(** An [n] by [n] array of arrays. *)
Definition square (n : nat) (matrix : list (list T)) : Prop :=
  length matrix = n ∧ Forall (λ row, length row = n) matrix.

(** A judgment that compares an item with itself and carries a ratio. *)
Definition self_judgment (c : comparison T) : Prop :=
  is_Some (ahp_ratio_aij c) ∧ left c = right c.

(** Two judgments with a ratio on the same unordered pair of items. *)
Definition same_pair (c1 c2 : comparison T) : Prop :=
  (left c1 = left c2 ∧ right c1 = right c2) ∨
  (left c1 = right c2 ∧ right c1 = left c2).

Definition clash (c1 c2 : comparison T) : Prop :=
  is_Some (ahp_ratio_aij c1) ∧ is_Some (ahp_ratio_aij c2) ∧ same_pair c1 c2.

(** No pair of items is judged twice. *)
Fixpoint independent (cs : list (comparison T)) : Prop :=
  match cs with
  | [] => True
  | c :: cs' => Forall (λ c', ¬ clash c c') cs' ∧ independent cs'
  end.

(** The judgment list a submission supplies for a group, when it has at
    least one judgment. *)
Definition supplied (block : gmap string (list (comparison T)))
    (s : string) : option (list (comparison T)) :=
  match block !! s with
  | Some (c :: cs) => Some (c :: cs)
  | _ => None
  end.

End Judgments.

(** Off the diagonal a pair of cells of the working matrix is either still
    unset, or one cell holds the ratio of a judgment on that pair and the
    other the quotient the script computed from it. *)
Definition paired `{N : Arith} (ids : list string)
    (cs : list (comparison num)) (matrix : list (list (option num)))
    (i j : nat) : Prop :=
  (cell matrix i j = Some None ∧ cell matrix j i = Some None) ∨
  ∃ c x, c ∈ cs ∧ ahp_ratio_aij c = Some x ∧
    ((indexOf ids (left c) = Some i ∧ indexOf ids (right c) = Some j ∧
      cell matrix i j = Some (Some x) ∧
      cell matrix j i = Some (Some (ndiv (nlit 1) x))) ∨
     (indexOf ids (left c) = Some j ∧ indexOf ids (right c) = Some i ∧
      cell matrix j i = Some (Some x) ∧
      cell matrix i j = Some (Some (ndiv (nlit 1) x)))).

(** *** Exact arithmetic *)

Definition positive (matrix : list (list R)) : Prop :=
  ∀ i j x, cell matrix i j = Some x → (0 < x)%R.

Definition reciprocal (matrix : list (list R)) : Prop :=
  ∀ i j x y, cell matrix i j = Some x → cell matrix j i = Some y →
    (x * y = 1)%R.

(** Judgments with a positive ratio, none of an item against itself. *)
Definition valid_judgments (cs : list (comparison R)) : Prop :=
  Forall (λ c, ¬ self_judgment c ∧
               ∀ x, ahp_ratio_aij c = Some x → (0 < x)%R) cs.


(** *** binary64 *)

(** A host whose pow gives the cube roots of 8, 1 and 1/8 exactly (the
    exponent is the binary64 value of 1/3). *)
Definition exact_cube_roots (approx : float -> float -> float) : Prop :=
  approx 8%float (1 / 3)%float = 2%float ∧
  approx 1%float (1 / 3)%float = 1%float ∧
  approx 0.125%float (1 / 3)%float = 0.5%float.

Definition judgment {T : Type} (l r : string) (x : T) : comparison T :=
  Comparison l r (Some x).

(** Scenario 1 of the specification. *)
Definition dimensions_1_2_4 : list (comparison float) :=
  [judgment "A" "B" 2%float; judgment "A" "C" 4%float;
   judgment "B" "C" 2%float].

Definition dimensions_matrix : list (list float) :=
  [[1; 2; 4]; [0.5; 1; 2]; [0.25; 0.5; 1]]%float.

(** Three judgments whose row products are 8, 1 and 1/8 and whose CR lies
    just below 0.1. *)
Definition borderline : list (comparison float) :=
  [judgment "A" "B" 2.8068%float;
   judgment "A" "C" 2.8502208921191392%float;
   judgment "B" "C" 2.8068%float].

Definition borderline_matrix : list (list float) :=
  [[1; 2.8068; 2.8502208921191392];
   [0.3562776115148924; 1; 2.8068];
   [0.35085; 0.3562776115148924; 1]]%float.

(** *** Further vocabulary *)

(** The items a judgment list names. *)
Definition named {T} (cs : list (comparison T)) (x : string) : Prop :=
  ∃ c, c ∈ cs ∧ (x = left c ∨ x = right c).


(** ** The sheets

    The spreadsheet with its sheets and their cells, as [saveRawData],
    [saveResults] and [saveDetailedWeights] write them.  A sheet is the list
    of its rows, a spreadsheet maps the names of its sheets to them. *)
Module Sheets.
Section Sheets.
Context `{N : Arith}.

(** A cell: the time stamp [new Date()] (its value is left out), a string, a
    number, the text [JSON.stringify(data)], or [undefined]. *)
Inductive value :=
  | Date
  | Text (s : string)
  | Number (x : num)
  | Json (data : submission num)
  | Undefined.

Definition sheet : Type := list (list value).
Definition workbook : Type := gmap string sheet.

(** [ss.getSheetByName(name)] and, when there is no such sheet,
    [ss.insertSheet(name)] with [appendRow(headers)]. *)
Definition open (name : string) (headers : list value) (ss : workbook) :
    workbook :=
  match ss !! name with
  | Some _ => ss
  | None => <[name := [headers]]> ss
  end.

Definition appendRow (name : string) (row : list value) (ss : workbook) :
    workbook :=
  alter (λ rows, rows ++ [row]) name ss.

(** [meta.key || ""] *)
Definition field (meta : gmap string string) (key : string) : value :=
  Text (default "" (meta !! key)).

(** [x || ""] for a number that may be missing. *)
Definition or_blank (x : option num) : value :=
  match x with
  | Some x => if ntruthy x then Number x else Text ""
  | None => Text ""
  end.

(** [b ? "是" : "否"] for a flag that may be missing. *)
Definition yes_no (b : option bool) : value :=
  Text (if default false b then "是" else "否").

(** *** saveRawData *)

Definition raw_headers : list value :=
  [Text "時間戳記"; Text "姓名"; Text "單位"; Text "專長"; Text "年資";
   Text "JSON資料"].

Definition raw_values (data : submission num) : list value :=
  let meta := meta data in
  [Date; field meta "name"; field meta "org"; field meta "field";
   field meta "years"; Json data].

Definition saveRawData (ss : workbook) (data : submission num) : workbook :=
  let ss := open "原始資料" raw_headers ss in
  appendRow "原始資料" (raw_values data) ss.

(** *** saveDetailedWeights *)

(** [Object.keys(result.weights).sort()] *)
Definition sorted_keys (result : section_result num) : list string :=
  merge_sort id_le (map_to_list (weights result)).*1.

Definition detail_headers (result : section_result num) : list value :=
  [Text "時間戳記"; Text "姓名"; Text "CR"; Text "一致性"]
    ++ (Text <$> sorted_keys result).

Definition detail_values (result : section_result num)
    (meta : gmap string string) : list value :=
  [Date; field meta "name"; Number (CR result);
   yes_no (Some (consistent result))]
    ++ ((λ id, from_option Number Undefined (weights result !! id))
          <$> sorted_keys result).

Definition saveDetailedWeights (ss : workbook) (sheetName : string)
    (result : option (section_result num)) (meta : gmap string string) :
    workbook :=
  match result with
  | None => ss
  | Some result =>
      let ss := open sheetName (detail_headers result) ss in
      appendRow sheetName (detail_values result meta) ss
  end.

(** *** saveResults *)

Definition summary_headers : list value :=
  [Text "時間戳記"; Text "姓名"; Text "單位";
   Text "構面CR"; Text "構面一致"; Text "A權重"; Text "B權重";
   Text "C權重"; Text "D權重";
   Text "A_CR"; Text "A一致"; Text "B_CR"; Text "B一致";
   Text "C_CR"; Text "C一致"; Text "D_CR"; Text "D一致"].

Definition summary_values (data : submission num)
    (results : gmap string (section_result num)) : list value :=
  let meta := meta data in
  let dim := results !! "dimensions" in
  [Date; field meta "name"; field meta "org";
   or_blank (CR <$> dim); yes_no (consistent <$> dim);
   or_blank (dim ≫= λ d, weights d !! "A");
   or_blank (dim ≫= λ d, weights d !! "B");
   or_blank (dim ≫= λ d, weights d !! "C");
   or_blank (dim ≫= λ d, weights d !! "D");
   or_blank (CR <$> results !! "A"); yes_no (consistent <$> results !! "A");
   or_blank (CR <$> results !! "B"); yes_no (consistent <$> results !! "B");
   or_blank (CR <$> results !! "C"); yes_no (consistent <$> results !! "C");
   or_blank (CR <$> results !! "D"); yes_no (consistent <$> results !! "D")].

Definition saveResults (ss : workbook) (data : submission num)
    (results : gmap string (section_result num)) : workbook :=
  let ss := open "AHP結果" summary_headers ss in
  let ss := appendRow "AHP結果" (summary_values data results) ss in
  let ss := saveDetailedWeights ss "權重_A" (results !! "A") (meta data) in
  let ss := saveDetailedWeights ss "權重_B" (results !! "B") (meta data) in
  let ss := saveDetailedWeights ss "權重_C" (results !! "C") (meta data) in
  saveDetailedWeights ss "權重_D" (results !! "D") (meta data).

(** *** doPost *)

Definition doPost (body : option (submission num)) (ss : workbook) :
    response num * workbook :=
  match body with
  | None => (Failed SyntaxError, ss)
  | Some data =>
      let ss := saveRawData ss data in
      match calculateAHP data with
      | Return results => (Ok results, saveResults ss data results)
      | Throw err => (Failed err, ss)
      end
  end.


(** *** What a sheet receives *)






End Sheets.
End Sheets.

(** * Proofs *)

(** ** Arrays of arrays *)

Section Arrays.
Context {A : Type}.
Implicit Types (matrix : list (list A)) (v : A).

Lemma cell_Some matrix i j x :
  cell matrix i j = Some x ↔ ∃ row, matrix !! i = Some row ∧ row !! j = Some x.
Proof.
  unfold cell. destruct (matrix !! i) as [row|]; simpl.
  - split; [by eauto|]. by intros (? & [= <-] & ?).
  - split; [done|]. by intros (? & ? & ?).
Qed.

Lemma cell_set_cell matrix i j v a b :
  cell (set_cell i j v matrix) a b =
    if decide (a = i ∧ b = j) then (λ _, v) <$> cell matrix a b
    else cell matrix a b.
Proof.
  unfold cell, set_cell. rewrite list_lookup_alter.
  destruct (decide (i = a)) as [->|Hi].
  - destruct (matrix !! a) as [row|]; simpl.
    + rewrite list_lookup_insert.
      repeat case_decide; try naive_solver.
      * destruct (lookup_lt_is_Some_2 row b) as [x ->]; [lia|done].
      * assert (j = b) as -> by naive_solver.
        rewrite lookup_ge_None_2; [done|lia].
    + by case_decide.
  - case_decide; naive_solver.
Qed.

Lemma set_cell_square n matrix i j v :
  square n matrix → square n (set_cell i j v matrix).
Proof.
  unfold square, set_cell. intros [Hlen Hrows]. split.
  - by rewrite length_alter.
  - rewrite Forall_lookup in Hrows |- *. intros a row.
    rewrite list_lookup_alter.
    destruct (decide (i = a)) as [->|?]; [|by apply Hrows].
    destruct (matrix !! a) as [row'|] eqn:Hrow; simpl; [|done].
    intros [= <-]. rewrite length_insert. by eapply Hrows.
Qed.

Lemma square_cell n matrix i j :
  square n matrix → i < n → j < n → is_Some (cell matrix i j).
Proof.
  intros [Hlen Hrows] Hi Hj.
  destruct (lookup_lt_is_Some_2 matrix i) as [row Hrow]; [lia|].
  rewrite Forall_lookup in Hrows. specialize (Hrows _ _ Hrow).
  destruct (lookup_lt_is_Some_2 row j) as [x Hx]; [lia|].
  exists x. apply cell_Some. eauto.
Qed.

Lemma cell_lt n matrix i j x :
  square n matrix → cell matrix i j = Some x → i < n ∧ j < n.
Proof.
  intros [Hlen Hrows] (row & Hrow & Hx)%cell_Some.
  rewrite Forall_lookup in Hrows. specialize (Hrows _ _ Hrow).
  apply lookup_lt_Some in Hrow, Hx. lia.
Qed.

(** Assignments to distinct cells commute. *)
Lemma set_cell_commute matrix i j v i' j' v' :
  (i, j) ≠ (i', j') →
  set_cell i j v (set_cell i' j' v' matrix) =
  set_cell i' j' v' (set_cell i j v matrix).
Proof.
  unfold set_cell. intros Hne.
  destruct (decide (i = i')) as [->|Hi].
  - rewrite !list_alter_alter_eq. apply list_alter_ext; [|done].
    intros row _. simpl. apply list_insert_insert_ne. congruence.
  - by apply list_alter_alter_ne.
Qed.

End Arrays.

(** ** buildMatrix *)

Section BuildMatrix.
Context `{N : Arith}.
Implicit Types (ids : list string) (c comp : comparison num)
  (matrix : list (list (option num))).

Lemma indexOf_Some ids x i : indexOf ids x = Some i → ids !! i = Some x.
Proof.
  revert i. induction ids as [|y ids IH]; intros i; simpl; [done|].
  case_decide; [by intros [= <-]; subst|].
  destruct (indexOf ids x) as [k|]; simpl; [|done].
  intros [= <-]. by apply IH.
Qed.

Lemma indexOf_lt ids x i : indexOf ids x = Some i → i < length ids.
Proof. intros H%indexOf_Some. by eapply lookup_lt_Some. Qed.

Lemma indexOf_inj ids x y i :
  indexOf ids x = Some i → indexOf ids y = Some i → x = y.
Proof. intros Hx%indexOf_Some Hy%indexOf_Some. congruence. Qed.

Lemma initial_square n : square n (initial n).
Proof.
  unfold square, initial. split.
  - by rewrite length_fmap, length_seq.
  - apply Forall_fmap, Forall_forall. intros i _. simpl.
    by rewrite length_fmap, length_seq.
Qed.

Lemma cell_initial n i j :
  i < n → j < n →
  cell (initial n) i j = Some (if Nat.eqb i j then Some (nlit 1) else None).
Proof.
  intros Hi Hj. unfold cell, initial.
  rewrite list_lookup_fmap, lookup_seq_lt by done. simpl.
  by rewrite list_lookup_fmap, lookup_seq_lt by done.
Qed.

Lemma enter_square n ids matrix c :
  square n matrix → square n (enter ids matrix c).
Proof.
  intros Hsq. unfold enter.
  destruct (indexOf ids (left c)), (indexOf ids (right c)),
    (ahp_ratio_aij c); auto using set_cell_square.
Qed.

Lemma entered_square n ids matrix cs :
  square n matrix → square n (foldl (enter ids) matrix cs).
Proof.
  revert matrix. induction cs as [|c cs IH]; intros matrix Hsq; simpl;
    auto using enter_square.
Qed.

(** The two assignments of one judgment, read back. *)
Lemma cell_enter ids matrix c i j ratio a b :
  square (length ids) matrix →
  indexOf ids (left c) = Some i → indexOf ids (right c) = Some j →
  ahp_ratio_aij c = Some ratio →
  cell (enter ids matrix c) a b =
    if decide (a = j ∧ b = i) then Some (Some (ndiv (nlit 1) ratio))
    else if decide (a = i ∧ b = j) then Some (Some ratio)
    else cell matrix a b.
Proof.
  intros Hsq Hi Hj Hr. unfold enter. rewrite Hi, Hj, Hr.
  apply indexOf_lt in Hi, Hj.
  rewrite !cell_set_cell.
  destruct (decide (a = j ∧ b = i)) as [[-> ->]|_].
  - destruct (decide (j = i ∧ i = j)) as [_|_];
      by destruct (square_cell _ matrix j i Hsq Hj Hi) as [? ->].
  - destruct (decide (a = i ∧ b = j)) as [[-> ->]|_]; [|done].
    by destruct (square_cell _ matrix i j Hsq Hi Hj) as [? ->].
Qed.

Lemma enter_skip ids matrix c :
  indexOf ids (left c) = None ∨ indexOf ids (right c) = None ∨
    ahp_ratio_aij c = None →
  enter ids matrix c = matrix.
Proof.
  unfold enter. intros [->|[->| ->]]; [done| |].
  - by destruct (indexOf ids (left c)).
  - by destruct (indexOf ids (left c)), (indexOf ids (right c)).
Qed.

Lemma fill_square n matrix : square n matrix → square n (fill matrix).
Proof.
  unfold square, fill. intros [Hlen Hrows]. split.
  - by rewrite length_fmap.
  - apply Forall_fmap. eapply Forall_impl; [done|].
    intros row Hrow. simpl. by rewrite length_fmap.
Qed.

Lemma cell_fill matrix i j :
  cell (fill matrix) i j = default (nlit 1) <$> cell matrix i j.
Proof.
  unfold cell, fill. rewrite list_lookup_fmap.
  destruct (matrix !! i) as [row|]; simpl; [|done].
  by rewrite list_lookup_fmap.
Qed.

Lemma buildMatrix_square ids cs : square (length ids) (buildMatrix ids cs).
Proof. apply fill_square, entered_square, initial_square. Qed.

Lemma paired_mono ids cs c matrix i j :
  paired ids cs matrix i j → paired ids (cs ++ [c]) matrix i j.
Proof.
  intros [?|(c' & x & Hc' & ?)]; [by left|right].
  exists c', x. rewrite elem_of_app. auto.
Qed.

Lemma enter_paired ids cs matrix c i j :
  square (length ids) matrix →
  i < length ids → j < length ids → i ≠ j →
  paired ids cs matrix i j → paired ids (cs ++ [c]) (enter ids matrix c) i j.
Proof.
  intros Hsq Hi Hj Hij Hinv.
  destruct (indexOf ids (left c)) as [i0|] eqn:Hi0;
    [|rewrite enter_skip; auto using paired_mono].
  destruct (indexOf ids (right c)) as [j0|] eqn:Hj0;
    [|rewrite enter_skip; auto using paired_mono].
  destruct (ahp_ratio_aij c) as [x|] eqn:Hx;
    [|rewrite enter_skip; auto using paired_mono].
  assert (c ∈ cs ++ [c]) as Hin
    by (rewrite elem_of_app, list_elem_of_singleton; auto).
  destruct (decide (i = i0 ∧ j = j0)) as [[-> ->]|Hd].
  { right. exists c, x. do 2 (split; [done|]). left.
    rewrite !(cell_enter ids matrix c i0 j0 x) by done.
    repeat case_decide; naive_solver. }
  destruct (decide (i = j0 ∧ j = i0)) as [[-> ->]|Hx'].
  { right. exists c, x. do 2 (split; [done|]). right.
    rewrite !(cell_enter ids matrix c i0 j0 x) by done.
    repeat case_decide; naive_solver. }
  apply paired_mono.
  destruct Hinv as [Hu|(c' & x' & ? & ? & Hc')]; [left|right; exists c', x'];
    rewrite !(cell_enter ids matrix c i0 j0 x) by done;
    repeat case_decide; naive_solver.
Qed.

Lemma entered_paired ids cs i j :
  i < length ids → j < length ids → i ≠ j →
  paired ids cs (foldl (enter ids) (initial (length ids)) cs) i j.
Proof.
  intros Hi Hj Hij. induction cs as [|c cs IH] using rev_ind; simpl.
  - left. rewrite !cell_initial by done.
    assert (Nat.eqb i j = false) as -> by by apply Nat.eqb_neq.
    assert (Nat.eqb j i = false) as -> by (apply Nat.eqb_neq; lia).
    done.
  - rewrite foldl_app. simpl.
    apply enter_paired; auto using entered_square, initial_square.
Qed.

Lemma entered_diagonal ids cs i :
  Forall (λ c, ¬ self_judgment c) cs → i < length ids →
  cell (foldl (enter ids) (initial (length ids)) cs) i i
    = Some (Some (nlit 1)).
Proof.
  intros Hcs Hi.
  assert (∀ matrix,
    square (length ids) matrix →
    cell matrix i i = Some (Some (nlit 1)) →
    cell (foldl (enter ids) matrix cs) i i = Some (Some (nlit 1))) as Hgen.
  { induction Hcs as [|c cs Hc _ IH]; intros matrix Hsq Hm; simpl; [done|].
    apply IH; [by apply enter_square|].
    destruct (indexOf ids (left c)) as [i0|] eqn:Hi0;
      [|rewrite enter_skip; auto].
    destruct (indexOf ids (right c)) as [j0|] eqn:Hj0;
      [|rewrite enter_skip; auto].
    destruct (ahp_ratio_aij c) as [x|] eqn:Hx;
      [|rewrite enter_skip; auto].
    rewrite (cell_enter ids matrix c i0 j0 x) by done.
    assert (i0 ≠ j0).
    { intros ->. apply Hc. split; [by rewrite Hx|].
      by eapply indexOf_inj. }
    repeat case_decide; destruct_and?; subst; done. }
  apply Hgen; [apply initial_square|].
  rewrite cell_initial by done. by rewrite Nat.eqb_refl.
Qed.

End BuildMatrix.

(** ** The order of the judgments *)

Section Order.
Context `{N : Arith}.
Implicit Types (ids : list string) (c : comparison num)
  (matrix : list (list (option num))).

Lemma clash_sym (c1 c2 : comparison num) : clash c1 c2 → clash c2 c1.
Proof. unfold clash, same_pair. naive_solver. Qed.

Lemma enter_commute ids matrix c1 c2 :
  ¬ clash c1 c2 →
  enter ids (enter ids matrix c1) c2 = enter ids (enter ids matrix c2) c1.
Proof.
  intros Hclash. unfold enter.
  destruct (indexOf ids (left c1)) as [i1|] eqn:Hi1; [|done].
  destruct (indexOf ids (right c1)) as [j1|] eqn:Hj1; [|done].
  destruct (ahp_ratio_aij c1) as [x1|] eqn:Hx1; [|done].
  destruct (indexOf ids (left c2)) as [i2|] eqn:Hi2; [|done].
  destruct (indexOf ids (right c2)) as [j2|] eqn:Hj2; [|done].
  destruct (ahp_ratio_aij c2) as [x2|] eqn:Hx2; [|done].
  assert (¬ (i1 = i2 ∧ j1 = j2) ∧ ¬ (i1 = j2 ∧ j1 = i2)) as [Hd Hx].
  { split; intros [-> ->]; apply Hclash; unfold clash, same_pair;
      rewrite Hx1, Hx2; (split; [done|]); (split; [done|]);
      [left|right]; split; by eapply indexOf_inj. }
  rewrite (set_cell_commute _ i2 j2 _ j1 i1) by naive_solver.
  rewrite (set_cell_commute _ i2 j2 _ i1 j1) by naive_solver.
  rewrite (set_cell_commute _ j2 i2 _ j1 i1) by naive_solver.
  by rewrite (set_cell_commute _ j2 i2 _ i1 j1) by naive_solver.
Qed.

Lemma independent_Permutation (cs cs' : list (comparison num)) :
  cs ≡ₚ cs' → independent cs → independent cs'.
Proof.
  induction 1 as [|c cs cs' Hp IH|c1 c2 cs|cs1 cs2 cs3 _ IH1 _ IH2];
    simpl; [done| | |by auto].
  - intros [Hc Hcs]. split; [by rewrite <- Hp|by auto].
  - intros [[Hc12 Hc2]%Forall_cons [Hc1 Hcs]]. split; [|done].
    apply Forall_cons. split; [|done]. by intros ?%clash_sym.
Qed.

Lemma entered_Permutation ids (cs cs' : list (comparison num)) :
  cs ≡ₚ cs' → independent cs →
  ∀ matrix, foldl (enter ids) matrix cs = foldl (enter ids) matrix cs'.
Proof.
  induction 1 as [|c cs cs' Hp IH|c1 c2 cs|cs1 cs2 cs3 Hp1 IH1 _ IH2];
    simpl; [done| | |].
  - intros [_ Hcs] matrix. by apply IH.
  - intros [[Hc12 _]%Forall_cons _] matrix.
    rewrite (enter_commute ids matrix c1 c2); [done|].
    by intros ?%clash_sym.
  - intros Hcs matrix. rewrite IH1 by done.
    apply IH2. by eapply independent_Permutation.
Qed.

(** The item list. *)

Lemma elem_of_uniq (l : list string) x : x ∈ uniq l ↔ x ∈ l.
Proof.
  induction l as [|y l IH]; simpl; [done|].
  rewrite !elem_of_cons, list_elem_of_filter, IH.
  destruct (decide (x = y)); naive_solver.
Qed.

Lemma NoDup_uniq (l : list string) : NoDup (uniq l).
Proof.
  induction l as [|y l IH]; simpl; [constructor|].
  constructor; [|by apply NoDup_filter].
  rewrite list_elem_of_filter. naive_solver.
Qed.

End Order.

Lemma string_compare_trans (a b c : string) :
  String.compare a b ≠ Gt → String.compare b c ≠ Gt →
  String.compare a c ≠ Gt.
Proof.
  revert b c. induction a as [|x a IH]; intros [|y b] [|z c]; simpl;
    try done.
  destruct (Ascii.compare x y) eqn:Hxy; [| |done].
  - apply Ascii.compare_eq_iff in Hxy as ->.
    destruct (Ascii.compare y z) eqn:Hyz; [by apply IH|done|done].
  - intros _. destruct (Ascii.compare y z) eqn:Hyz; [| |done].
    + apply Ascii.compare_eq_iff in Hyz as ->. by rewrite Hxy.
    + intros _. unfold Ascii.compare in *.
      rewrite N.compare_lt_iff in Hxy, Hyz.
      assert ((N_of_ascii x ?= N_of_ascii z)%N = Lt) as ->; [|done].
      apply N.compare_lt_iff. lia.
Qed.

#[export] Instance id_le_trans : Transitive id_le.
Proof.
  intros a b c. unfold id_le, String.leb. intros Hab Hbc.
  pose proof (string_compare_trans a b c) as H.
  destruct (String.compare a b), (String.compare b c),
    (String.compare a c); try done; exfalso; by apply H.
Qed.

#[export] Instance id_le_antisym : AntiSymm (=) id_le.
Proof. intros a b. apply String.leb_antisym. Qed.

#[export] Instance id_le_total : Total id_le.
Proof. intros a b. apply String.leb_total. Qed.

Section Items.
Context `{N : Arith}.

Lemma item_ids_Permutation (cs cs' : list (comparison num)) :
  cs ≡ₚ cs' → item_ids cs = item_ids cs'.
Proof.
  intros Hp. unfold item_ids.
  apply (Sorted_unique id_le); try apply Sorted_merge_sort; try apply _.
  rewrite !merge_sort_Permutation.
  apply NoDup_Permutation; try apply NoDup_uniq.
  intros x. rewrite !elem_of_uniq. by rewrite Hp.
Qed.

Lemma evaluate_Permutation (cs cs' : list (comparison num)) :
  cs ≡ₚ cs' → independent cs → evaluate cs = evaluate cs'.
Proof.
  intros Hp Hind. unfold evaluate, buildMatrix.
  rewrite <- (item_ids_Permutation cs cs' Hp).
  by rewrite <- (entered_Permutation _ cs cs' Hp Hind).
Qed.

End Items.

(** ** The claims on the structure of the engine *)

Section Structure.
Context `{N : Arith}.
Implicit Types (ids : list string) (c : comparison num).

(** What a cell of the finished matrix holds, off the diagonal. *)
Lemma buildMatrix_paired ids cs i j :
  i < length ids → j < length ids → i ≠ j →
  (cell (buildMatrix ids cs) i j = Some (nlit 1) ∧
   cell (buildMatrix ids cs) j i = Some (nlit 1)) ∨
  ∃ c x, c ∈ cs ∧ ahp_ratio_aij c = Some x ∧
    ((indexOf ids (left c) = Some i ∧ indexOf ids (right c) = Some j ∧
      cell (buildMatrix ids cs) i j = Some x ∧
      cell (buildMatrix ids cs) j i = Some (ndiv (nlit 1) x)) ∨
     (indexOf ids (left c) = Some j ∧ indexOf ids (right c) = Some i ∧
      cell (buildMatrix ids cs) j i = Some x ∧
      cell (buildMatrix ids cs) i j = Some (ndiv (nlit 1) x))).
Proof.
  intros Hi Hj Hij. unfold buildMatrix. rewrite !cell_fill.
  destruct (entered_paired ids cs i j Hi Hj Hij)
    as [[-> ->]|(c & x & Hc & Hx & H)]; [by left|right].
  exists c, x. do 2 (split; [done|]).
  destruct H as [(? & ? & -> & ->)|(? & ? & -> & ->)]; auto.
Qed.

Lemma buildMatrix_diagonal ids cs i :
  Forall (λ c, ¬ self_judgment c) cs → i < length ids →
  cell (buildMatrix ids cs) i i = Some (nlit 1).
Proof.
  intros Hcs Hi. unfold buildMatrix.
  by rewrite cell_fill, entered_diagonal.
Qed.


(** C6 (as amended): when no pair of items is judged twice, every
    permutation of a group's judgment list is evaluated to the same item
    order, matrix, weights, consistency figures and section result. *)
Theorem evaluate_order_independent (cs cs' : list (comparison num)) :
  cs ≡ₚ cs' → independent cs →
  let ids := item_ids cs in
  let ids' := item_ids cs' in
  let matrix := buildMatrix ids cs in
  let matrix' := buildMatrix ids' cs' in
  let weights := calculateWeights matrix (length ids) in
  let weights' := calculateWeights matrix' (length ids') in
  ids = ids' ∧ matrix = matrix' ∧ weights = weights' ∧
  calculateCR matrix weights (length ids)
    = calculateCR matrix' weights' (length ids') ∧
  evaluate cs = evaluate cs'.
Proof.
  intros Hp Hind. cbv zeta.
  assert (buildMatrix (item_ids cs) cs = buildMatrix (item_ids cs') cs')
    as Hm.
  { rewrite <- (item_ids_Permutation cs cs' Hp). unfold buildMatrix.
    by rewrite (entered_Permutation _ cs cs' Hp Hind). }
  rewrite <- Hm, <- (item_ids_Permutation cs cs' Hp).
  split_and!; try done. by apply evaluate_Permutation.
Qed.

Lemma calculateAHP_loop_spec data block todo results :
  comparisons data = Some block →
  ∃ results',
    calculateAHP_loop data todo results = Return results' ∧
    ∀ s, results' !! s =
      match supplied block s with
      | Some cs => if bool_decide (s ∈ todo) then Some (evaluate cs)
                   else results !! s
      | None => results !! s
      end.
Proof.
  intros Hblock. revert results.
  induction todo as [|section todo IH]; intros results;
    cbn [calculateAHP_loop].
  - exists results. split; [done|]. intros s.
    destruct (supplied block s); [|done].
    rewrite bool_decide_eq_false_2; [done|]. apply not_elem_of_nil.
  - rewrite Hblock.
    assert (∀ s, s ≠ section →
      bool_decide (s ∈ section :: todo) = bool_decide (s ∈ todo)) as Hne.
    { intros s Hs. apply bool_decide_ext. rewrite elem_of_cons. naive_solver. }
    assert (bool_decide (section ∈ section :: todo) = true) as Hhd.
    { apply bool_decide_eq_true_2, elem_of_cons. auto. }
    destruct (block !! section) as [[|c cs]|] eqn:Hsec.
    + destruct (IH results) as (results' & -> & Hres).
      exists results'. split; [done|]. intros s. rewrite Hres.
      destruct (supplied block s) as [cs'|] eqn:Hs; [|done].
      destruct (decide (s = section)) as [->|Hs']; [|by rewrite Hne].
      unfold supplied in Hs. by rewrite Hsec in Hs.
    + destruct (IH (<[section := evaluate (c :: cs)]> results))
        as (results' & -> & Hres).
      exists results'. split; [done|]. intros s. rewrite Hres.
      destruct (decide (s = section)) as [->|Hs'].
      * unfold supplied. rewrite Hsec, lookup_insert_eq, Hhd.
        by destruct (bool_decide (section ∈ todo)).
      * rewrite lookup_insert_ne by done. by rewrite Hne.
    + destruct (IH results) as (results' & -> & Hres).
      exists results'. split; [done|]. intros s. rewrite Hres.
      destruct (supplied block s) as [cs'|] eqn:Hs; [|done].
      destruct (decide (s = section)) as [->|Hs']; [|by rewrite Hne].
      unfold supplied in Hs. by rewrite Hsec in Hs.
Qed.

(** C8: a submission with a comparisons block is evaluated without error;
    the result has an entry for exactly the recognized groups for which the
    block has a non-empty judgment list, and the entry is the evaluation of
    that list.  A group that is absent or empty is left out. *)
Theorem calculateAHP_groups data block :
  comparisons data = Some block →
  ∃ results,
    calculateAHP data = Return results ∧
    (∀ s, is_Some (results !! s) ↔
            s ∈ sections ∧ ∃ c cs, block !! s = Some (c :: cs)) ∧
    (∀ s c cs, s ∈ sections → block !! s = Some (c :: cs) →
               results !! s = Some (evaluate (c :: cs))).
Proof.
  intros Hblock.
  destruct (calculateAHP_loop_spec data block sections ∅ Hblock)
    as (results & Hret & Hres).
  exists results. split; [done|]. split; last first.
  { intros s c cs Hs Hc. rewrite Hres. unfold supplied. rewrite Hc.
    by rewrite bool_decide_eq_true_2. }
  intros s. rewrite Hres. unfold supplied.
  destruct (block !! s) as [[|c cs]|]; rewrite ?lookup_empty.
  - split; [by intros [? [=]]|]. by intros [_ (? & ? & [=])].
  - case_bool_decide.
    + split; [by eauto 10|by eauto].
    + split; [by intros [? [=]]|tauto].
  - split; [by intros [? [=]]|]. by intros [_ (? & ? & [=])].
Qed.

(** C9: without a comparisons block [calculateAHP] throws, once; [doPost]
    answers with that one error, stores the raw submission and appends no
    result. *)
Theorem missing_comparisons_fatal data ss :
  comparisons data = None →
  calculateAHP data = Throw TypeError ∧
  doPost (Some data) ss
    = (Failed TypeError, Spreadsheet (raw_rows ss ++ [data]) (result_rows ss)).
Proof.
  intros Hnone. unfold doPost, calculateAHP. simpl. by rewrite Hnone.
Qed.

End Structure.

(** ** Exact arithmetic *)

Section Sums.
Local Open Scope R_scope.















End Sums.

Section ExactEngine.
Local Open Scope R_scope.
Implicit Types (matrix : list (list R)) (weights : list R).


Lemma exact_one : Q2R 1 = 1.
Proof. unfold Q2R. simpl. lra. Qed.




Lemma entry_reciprocal matrix n i j :
  square n matrix → reciprocal matrix → (i < n)%nat → (j < n)%nat →
  entry matrix i j * entry matrix j i = 1.
Proof.
  intros Hsq Hrec Hi Hj. unfold entry. cbn [num Exact.arith nundef].
  destruct (square_cell n matrix i j Hsq Hi Hj) as [x Hx].
  destruct (square_cell n matrix j i Hsq Hj Hi) as [y Hy].
  rewrite Hx, Hy. simpl. by eapply Hrec.
Qed.





End ExactEngine.

Section ExactMatrix.
Local Open Scope R_scope.

Lemma buildMatrix_exact_valid ids (cs : list (comparison R)) :
  valid_judgments cs →
  let matrix := buildMatrix ids cs in
  square (length ids) matrix ∧ positive matrix ∧ reciprocal matrix.
Proof.
  intros Hcs matrix. unfold valid_judgments in Hcs.
  assert (Forall (λ c, ¬ self_judgment c) cs) as Hself.
  { eapply Forall_impl; [exact Hcs|]. by intros c [? _]. }
  assert (∀ c x, c ∈ cs → ahp_ratio_aij c = Some x → 0 < x) as Hpos.
  { intros c x Hc. rewrite Forall_forall in Hcs. by apply Hcs. }
  pose proof (buildMatrix_square ids cs) as Hsq.
  assert (∀ i j, (i < length ids)%nat → (j < length ids)%nat →
    ∃ x y, cell matrix i j = Some x ∧ cell matrix j i = Some y ∧
           0 < x ∧ 0 < y ∧ x * y = 1) as Hcells.
  { intros i j Hi Hj. destruct (decide (i = j)) as [->|Hij].
    - exists 1, 1. unfold matrix.
      rewrite (buildMatrix_diagonal) by done.
      cbn [nlit Exact.arith]. rewrite exact_one. split_and!; auto; lra.
    - destruct (buildMatrix_paired ids cs i j Hi Hj Hij)
        as [[Hx Hy]|(c & x & Hc & Hr & [(_ & _ & Hx & Hy)|(_ & _ & Hx & Hy)])];
        fold matrix in Hx, Hy; rewrite Hx, Hy; cbn [nlit ndiv Exact.arith];
        rewrite exact_one.
      + exists 1, 1. split_and!; auto; lra.
      + specialize (Hpos c x Hc Hr).
        exists x, (1 / x). split_and!; auto.
        * by apply Rdiv_lt_0_compat; [lra|].
        * field. lra.
      + specialize (Hpos c x Hc Hr).
        exists (1 / x), x. split_and!; auto.
        * by apply Rdiv_lt_0_compat; [lra|].
        * field. lra. }
  split; [done|]. split.
  - intros i j x Hx.
    destruct (cell_lt _ _ _ _ _ Hsq Hx) as [Hi Hj].
    destruct (Hcells i j Hi Hj) as (x' & y' & Hx' & _ & ? & _).
    by pose proof (eq_trans (eq_sym Hx) Hx') as [= ->].
  - intros i j x y Hx Hy.
    destruct (cell_lt _ _ _ _ _ Hsq Hx) as [Hi Hj].
    destruct (Hcells i j Hi Hj) as (x' & y' & Hx' & Hy' & _ & _ & ?).
    pose proof (eq_trans (eq_sym Hx) Hx') as [= ->].
    by pose proof (eq_trans (eq_sym Hy) Hy') as [= ->].
Qed.



End ExactMatrix.

(** C3 (as amended): the matrix is square; its diagonal is 1 when no
    judgment with a ratio compares an item with itself; and off the diagonal
    two mirrored cells are both the default 1, or one holds the ratio [x] of
    a judgment on that pair and the other the quotient [1 / x] computed from
    it.  In exact arithmetic, for positive ratios and no judgment of an item
    against itself, the product of two mirrored cells is 1. *)
Theorem buildMatrix_reciprocal :
  (∀ (N : Arith) (ids : list string) (cs : list (comparison num)),
     let matrix := buildMatrix ids cs in
     let n := length ids in
     square n matrix ∧
     (Forall (λ c, ¬ self_judgment c) cs →
      ∀ i, i < n → cell matrix i i = Some (nlit 1)) ∧
     (∀ i j, i < n → j < n → i ≠ j →
      ∃ x y, cell matrix i j = Some x ∧ cell matrix j i = Some y ∧
        ((x = nlit 1 ∧ y = nlit 1) ∨
         y = ndiv (nlit 1) x ∨ x = ndiv (nlit 1) y))) ∧
  (∀ (ids : list string) (cs : list (comparison R)),
     valid_judgments cs →
     ∀ i j, i < length ids → j < length ids →
       (entry (buildMatrix ids cs) i j * entry (buildMatrix ids cs) j i
        = 1)%R).
Proof.
  split.
  - intros N ids cs. cbv zeta. split; [apply buildMatrix_square|]. split.
    + intros Hcs i Hi. by apply buildMatrix_diagonal.
    + intros i j Hi Hj Hij.
      destruct (buildMatrix_paired ids cs i j Hi Hj Hij)
        as [[-> ->]|(c & x & _ & _ &
                     [(_ & _ & -> & ->)|(_ & _ & -> & ->)])];
        eauto 10.
  - intros ids cs Hcs i j Hi Hj.
    destruct (buildMatrix_exact_valid ids cs Hcs) as (Hsq & _ & Hrec).
    by apply (entry_reciprocal _ (length ids)).
Qed.

(** ** binary64 *)

Section Binary64.

(** Division by zero never gives a zero. *)
Lemma div_zero_not_finite (x : float) :
  Prim2SF (x / 0)%float = S754_nan ∨
  ∃ s, Prim2SF (x / 0)%float = S754_infinity s.
Proof.
  rewrite FloatAxioms.div_spec.
  change (Prim2SF 0%float) with (S754_zero false).
  destruct (Prim2SF x) as [s|s| |s m e]; simpl; eauto.
Qed.

Lemma not_finite_div (x y : float) :
  Prim2SF x = S754_nan ∨ (∃ s, Prim2SF x = S754_infinity s) →
  Prim2SF y = Prim2SF 1.5%float →
  PrimFloat.eqb (x / y)%float 0%float = false.
Proof.
  intros Hx Hy. rewrite FloatAxioms.eqb_spec, FloatAxioms.div_spec, Hy.
  destruct Hx as [->|[s ->]]; [done|]. by destruct s.
Qed.

Lemma not_finite_not_zero (x : float) :
  Prim2SF x = S754_nan ∨ (∃ s, Prim2SF x = S754_infinity s) →
  PrimFloat.eqb x 0%float = false.
Proof.
  intros Hx. rewrite FloatAxioms.eqb_spec.
  destruct Hx as [->|[s ->]]; [done|]. by destruct s.
Qed.

End Binary64.

Section Host.
Variable approx : float -> float -> float.
Local Abbreviation host := (JSNumber.arith approx).

(** For one item CI is a quotient by zero, and the table's 0 is replaced by
    1.5: neither CI nor CR can be 0. *)
Lemma calculateCR_single (matrix : list (list float)) (weights : list float) :
  let r := calculateCR (N := host) matrix weights 1 in
  PrimFloat.eqb (cr_CI r) 0%float = false ∧
  PrimFloat.eqb (cr_CR r) 0%float = false.
Proof.
  unfold calculateCR. cbv zeta.
  set (lambdaMax := (foldl _ _ _ / of_nat 1)%num).
  change (cr_CI _) with ((lambdaMax - 1) / 0)%float.
  change (cr_CR _) with (((lambdaMax - 1) / 0) / 1.5)%float.
  split.
  - apply not_finite_not_zero, div_zero_not_finite.
  - apply not_finite_div; [apply div_zero_not_finite|done].
Qed.

(** For two items the table's 0 is replaced by 1.5 as well. *)
Lemma calculateCR_pair (matrix : list (list float)) (weights : list float) :
  let r := calculateCR (N := host) matrix weights 2 in
  cr_CR r = (cr_CI r / 1.5)%float.
Proof. reflexivity. Qed.

(** Evaluation up to the weights, for a host with exact cube roots. *)
Ltac host_weights H :=
  destruct H as (H8 & H1 & H18); vm_compute in H8, H1, H18;
  vm_compute; rewrite ?H8, ?H1, ?H18; vm_compute; reflexivity.

Lemma dimensions_built :
  item_ids (N := host) dimensions_1_2_4 = ["A"; "B"; "C"] ∧
  buildMatrix (N := host) ["A"; "B"; "C"] dimensions_1_2_4
    = dimensions_matrix.
Proof. split_and!; vm_compute; reflexivity. Qed.

Lemma dimensions_weights :
  exact_cube_roots approx →
  calculateWeights (N := host) dimensions_matrix 3
    = [0.5714285714285714; 0.2857142857142857; 0.14285714285714285]%float.
Proof. intros H. host_weights H. Qed.

Lemma borderline_built :
  item_ids (N := host) borderline = ["A"; "B"; "C"] ∧
  buildMatrix (N := host) ["A"; "B"; "C"] borderline = borderline_matrix.
Proof. split_and!; vm_compute; reflexivity. Qed.

Lemma borderline_weights :
  exact_cube_roots approx →
  calculateWeights (N := host) borderline_matrix 3
    = [0.5714285714285714; 0.2857142857142857; 0.14285714285714285]%float.
Proof. intros H. host_weights H. Qed.

(** C7: on a host whose pow gives the cube roots of 8, 1 and 1/8 exactly,
    the submission with group "dimensions" and judgments (A,B,2), (A,C,4),
    (B,C,2) is evaluated to weights A: 0.5714, B: 0.2857, C: 0.1429, a CR
    equal to 0 and consistent = true. *)
Theorem scenario_dimensions :
  exact_cube_roots approx →
  ∃ results r,
    calculateAHP (N := host)
      (Submission ∅ (Some {[ "dimensions" := dimensions_1_2_4 ]}))
      = Return results ∧
    results !! "dimensions" = Some r ∧
    n r = 3 ∧
    weights r !! "A" = Some 0.5714%float ∧
    weights r !! "B" = Some 0.2857%float ∧
    weights r !! "C" = Some 0.1429%float ∧
    lambdaMax r = 3%float ∧ CI r = 0%float ∧ CR r = 0%float ∧
    consistent r = true.
Proof.
  intros H.
  eexists _, (evaluate (N := host) dimensions_1_2_4).
  split; [reflexivity|]. split; [reflexivity|].
  unfold evaluate. cbv zeta.
  destruct dimensions_built as [-> ->].
  change (length ["A"; "B"; "C"]) with 3.
  rewrite (dimensions_weights H).
  vm_compute. auto 12.
Qed.

(** C10: the consistent flag is the comparison of the unrounded CR with
    0.1, while the CR field is that CR rounded to 4 decimals; so a result
    can report a CR equal to 0.1 together with consistent = true, as the
    judgments [borderline] do: their unrounded CR is 0.09996..., on every
    host whose pow gives the cube roots of 8, 1 and 1/8 exactly. *)
Theorem consistent_from_unrounded_CR :
  exact_cube_roots approx →
  (∀ cs : list (comparison float),
     let ids := item_ids (N := host) cs in
     let matrix := buildMatrix (N := host) ids cs in
     let weights := calculateWeights (N := host) matrix (length ids) in
     let full := calculateCR (N := host) matrix weights (length ids) in
     consistent (evaluate (N := host) cs)
       = PrimFloat.ltb (cr_CR full) 0.1%float ∧
     CR (evaluate (N := host) cs) = round4 (N := host) (cr_CR full)) ∧
  (let ids := item_ids (N := host) borderline in
   let matrix := buildMatrix (N := host) ids borderline in
   let weights := calculateWeights (N := host) matrix (length ids) in
   let full := calculateCR (N := host) matrix weights (length ids) in
   cr_CR full = 0.09996139916360768%float ∧
   CR (evaluate (N := host) borderline) = 0.1%float ∧
   consistent (evaluate (N := host) borderline) = true).
Proof.
  intros H. split.
  - intros cs. cbv zeta. unfold evaluate. cbv zeta.
    by destruct (calculateCR (N := host) _ _ _).
  - cbv zeta. unfold evaluate. cbv zeta.
    destruct borderline_built as [-> ->].
    change (length ["A"; "B"; "C"]) with 3.
    rewrite (borderline_weights H).
    vm_compute. auto.
Qed.

End Host.

(** ** The reference host *)

Lemma reference_cube_roots : exact_cube_roots JSNumber.pow_ref.
Proof. unfold exact_cube_roots. split_and!; vm_compute; reflexivity. Qed.


(** C3, counterexample: a judgment of an item against itself overwrites the
    diagonal, and a zero ratio gives two mirrored cells whose product is
    NaN. *)
Lemma diagonal_overwritten :
  let self := [judgment "A" "A" 2%float] in
  let zero := [judgment "A" "B" 0%float] in
  buildMatrix (item_ids self) self = [[0.5]]%float ∧
  (entry (buildMatrix (item_ids zero) zero) 0 1
     * entry (buildMatrix (item_ids zero) zero) 1 0)%float = nan.
Proof. cbv zeta. split_and!; vm_compute; reflexivity. Qed.



(** C6, counterexample: two judgments on the same pair; the later one
    wins, so the two orders give different matrices and weights. *)
Lemma last_judgment_wins :
  let cs := [judgment "A" "B" 2%float; judgment "A" "B" 3%float] in
  let cs' := [judgment "A" "B" 3%float; judgment "A" "B" 2%float] in
  cs ≡ₚ cs' ∧
  buildMatrix (item_ids cs) cs = [[1; 3]; [0.33333333333333331; 1]]%float ∧
  buildMatrix (item_ids cs') cs' = [[1; 2]; [0.5; 1]]%float ∧
  weights (evaluate cs) !! "A" = Some 0.75%float ∧
  weights (evaluate cs') !! "A" = Some 0.6667%float.
Proof.
  cbv zeta. split_and!; [apply perm_swap|..]; vm_compute; reflexivity.
Qed.

(** C2 (the code at the failing inputs): for a single item CI and CR are
    never 0, whatever the host, the matrix and the weights, and for two
    items CR is CI / 1.5, not 0; the group with the one judgment (A, A, 1)
    is reported with CI and CR NaN and as not consistent; the group with the
    judgments (A, A, 2) and (B, B, 3) is reported with CR -0.3751. *)
Theorem single_item_never_zero :
  (∀ approx matrix weights,
     let r := calculateCR (N := JSNumber.arith approx) matrix weights 1 in
     PrimFloat.eqb (cr_CI r) 0%float = false ∧
     PrimFloat.eqb (cr_CR r) 0%float = false) ∧
  (∀ approx matrix weights,
     let r := calculateCR (N := JSNumber.arith approx) matrix weights 2 in
     cr_CR r = (cr_CI r / 1.5)%float) ∧
  (let r := evaluate [judgment "A" "A" 1%float] in
   n r = 1 ∧ CI r = nan ∧ CR r = nan ∧ consistent r = false) ∧
  (let r := evaluate
              [judgment "A" "A" 2%float; judgment "B" "B" 3%float] in
   n r = 2 ∧ CR r = (-0.3751)%float ∧ consistent r = true).
Proof.
  split; [intros; apply calculateCR_single|].
  split; [intros; apply calculateCR_pair|].
  cbv zeta. split_and!; vm_compute; reflexivity.
Qed.

(** ** The statements at concrete inputs *)


Lemma buildMatrix_reciprocal_witness :
  let cs := [judgment "A" "B" 3%float] in
  let matrix := buildMatrix ["A"; "B"] cs in
  cell matrix 0 0 = Some 1%float ∧
  ∃ x y, cell matrix 0 1 = Some x ∧ cell matrix 1 0 = Some y ∧
    ((x = 1%float ∧ y = 1%float) ∨ y = (1 / x)%float ∨ x = (1 / y)%float).
Proof.
  destruct (proj1 buildMatrix_reciprocal reference ["A"; "B"]
              [judgment "A" "B" 3%float]) as (_ & Hdiag & Hpair).
  split.
  - apply Hdiag; [|by repeat constructor].
    repeat constructor. by intros [_ [=]].
  - apply Hpair; by repeat constructor.
Defined.

Lemma evaluate_order_independent_witness :
  let cs := [judgment "A" "B" 2%float; judgment "B" "C" 3%float] in
  let cs' := [judgment "B" "C" 3%float; judgment "A" "B" 2%float] in
  item_ids cs = item_ids cs' ∧
  buildMatrix (item_ids cs) cs = buildMatrix (item_ids cs') cs' ∧
  calculateWeights (buildMatrix (item_ids cs) cs) (length (item_ids cs))
    = calculateWeights (buildMatrix (item_ids cs') cs')
        (length (item_ids cs')) ∧
  calculateCR (buildMatrix (item_ids cs) cs)
      (calculateWeights (buildMatrix (item_ids cs) cs)
         (length (item_ids cs))) (length (item_ids cs))
    = calculateCR (buildMatrix (item_ids cs') cs')
        (calculateWeights (buildMatrix (item_ids cs') cs')
           (length (item_ids cs'))) (length (item_ids cs')) ∧
  evaluate cs = evaluate cs'.
Proof.
  apply (evaluate_order_independent (N := reference)); [apply perm_swap|].
  simpl. split_and!; try done. repeat constructor.
  by intros (_ & _ & [[[=] _]|[[=] _]]).
Defined.

Lemma calculateAHP_groups_witness :
  let block : gmap string (list (comparison float)) :=
    {[ "A" := [judgment "A1" "A2" 3%float]; "B" := [] ]} in
  ∃ results,
    calculateAHP (Submission ∅ (Some block)) = Return results ∧
    (∀ s, is_Some (results !! s) ↔
            s ∈ sections ∧ ∃ c cs, block !! s = Some (c :: cs)) ∧
    (∀ s c cs, s ∈ sections → block !! s = Some (c :: cs) →
               results !! s = Some (evaluate (c :: cs))).
Proof.
  exact (calculateAHP_groups (N := reference) (Submission ∅ (Some _)) _
           eq_refl).
Defined.

Lemma missing_comparisons_fatal_witness :
  let data : submission float := Submission ∅ None in
  calculateAHP data = Throw TypeError ∧
  doPost (Some data) (Spreadsheet [] [])
    = (Failed TypeError, Spreadsheet ([] ++ [data]) []).
Proof.
  exact (missing_comparisons_fatal (N := reference) (Submission ∅ None)
           (Spreadsheet [] []) eq_refl).
Defined.

Lemma scenario_dimensions_witness :
  exact_cube_roots JSNumber.pow_ref ∧
  ∃ results r,
    calculateAHP
      (Submission ∅ (Some {[ "dimensions" := dimensions_1_2_4 ]}))
      = Return results ∧
    results !! "dimensions" = Some r ∧
    n r = 3 ∧
    weights r !! "A" = Some 0.5714%float ∧
    weights r !! "B" = Some 0.2857%float ∧
    weights r !! "C" = Some 0.1429%float ∧
    lambdaMax r = 3%float ∧ CI r = 0%float ∧ CR r = 0%float ∧
    consistent r = true.
Proof.
  split; [exact reference_cube_roots|].
  exact (scenario_dimensions JSNumber.pow_ref reference_cube_roots).
Defined.

Lemma consistent_from_unrounded_CR_witness :
  exact_cube_roots JSNumber.pow_ref ∧
  (let ids := item_ids borderline in
   let matrix := buildMatrix ids borderline in
   let weights := calculateWeights matrix (length ids) in
   let full := calculateCR matrix weights (length ids) in
   cr_CR full = 0.09996139916360768%float ∧
   CR (evaluate borderline) = 0.1%float ∧
   consistent (evaluate borderline) = true).
Proof.
  split; [exact reference_cube_roots|].
  exact (proj2 (consistent_from_unrounded_CR JSNumber.pow_ref
                  reference_cube_roots)).
Defined.




(** * Further properties of the code *)

(** ** The item list *)

Section ItemList.
Context `{N : Arith}.
Implicit Types (ids : list string) (c : comparison num)
  (cs : list (comparison num)).

Lemma elem_of_item_ids cs x : x ∈ item_ids cs ↔ named cs x.
Proof.
  unfold item_ids, named. rewrite merge_sort_Permutation, elem_of_uniq.
  rewrite list_elem_of_bind. split.
  - intros (c & Hx & Hc). exists c. split; [done|].
    rewrite !elem_of_cons, elem_of_nil in Hx. tauto.
  - intros (c & Hc & Hx). exists c. split; [|done].
    rewrite !elem_of_cons. tauto.
Qed.

Lemma NoDup_item_ids cs : NoDup (item_ids cs).
Proof.
  unfold item_ids. rewrite merge_sort_Permutation. apply NoDup_uniq.
Qed.

Lemma indexOf_elem_of ids x : x ∈ ids → ∃ i, indexOf ids x = Some i.
Proof.
  induction ids as [|y ids IH]; [by intros ?%elem_of_nil|].
  intros Hx. simpl. case_decide; [by eauto|].
  apply elem_of_cons in Hx as [->|Hx]; [done|].
  destruct (IH Hx) as [i ->]. by eauto.
Qed.

(** X1: the item list of a group ([[...new Set(...)].sort()]) is sorted by
    code units, holds no item twice and holds exactly the items the
    judgments name, on either side. *)
Theorem item_ids_sorted_distinct cs :
  Sorted id_le (item_ids cs) ∧
  NoDup (item_ids cs) ∧
  ∀ x, x ∈ item_ids cs ↔ named cs x.
Proof.
  split_and!.
  - apply Sorted_merge_sort. apply _.
  - apply NoDup_item_ids.
  - apply elem_of_item_ids.
Qed.

(** X2: two judgment lists that name the same items have the same item
    list, whatever their judgments, order and ratios are; so the rows and
    columns of their matrices stand for the same items. *)
Theorem item_ids_same_items (cs cs' : list (comparison num)) :
  (∀ x, named cs x ↔ named cs' x) → item_ids cs = item_ids cs'.
Proof.
  intros Hsame.
  apply (Sorted_unique id_le);
    try (unfold item_ids; apply Sorted_merge_sort; apply _).
  apply NoDup_Permutation; try apply NoDup_item_ids.
  intros x. by rewrite !elem_of_item_ids.
Qed.

End ItemList.

(** ** Results and matrices *)

Section Results.
Context `{N : Arith}.
Implicit Types (ids : list string) (c : comparison num)
  (cs : list (comparison num)).

(** ** The weight map *)




(** ** Later judgments *)

Lemma entered_move_last ids matrix c cs :
  Forall (λ c', ¬ clash c c') cs →
  foldl (enter ids) (enter ids matrix c) cs
    = enter ids (foldl (enter ids) matrix cs) c.
Proof.
  intros Hcs. revert matrix.
  induction Hcs as [|c' cs Hc' _ IH]; intros matrix; simpl; [done|].
  rewrite (enter_commute ids matrix c c') by done. apply IH.
Qed.

Lemma buildMatrix_last_on_pair ids cs1 c cs2 i j x a b :
  indexOf ids (left c) = Some i → indexOf ids (right c) = Some j →
  ahp_ratio_aij c = Some x →
  Forall (λ c', ¬ clash c c') cs2 →
  cell (buildMatrix ids (cs1 ++ c :: cs2)) a b =
    if decide (a = j ∧ b = i) then Some (ndiv (nlit 1) x)
    else if decide (a = i ∧ b = j) then Some x
    else cell (buildMatrix ids (cs1 ++ cs2)) a b.
Proof.
  intros Hi Hj Hx Hcs2. unfold buildMatrix.
  rewrite !foldl_app. simpl. rewrite entered_move_last by done.
  rewrite !cell_fill.
  rewrite (cell_enter ids _ c i j x)
    by auto using entered_square, initial_square.
  by repeat case_decide.
Qed.

(** X4: a judgment with ratio [x] that no later judgment of the list
    contradicts (none with a ratio on the same pair) settles its pair in the
    matrix built over the list's own items: both items are found, the
    mirrored cell holds [1 / x] and, unless the judgment compares an item
    with itself, its own cell holds [x]. *)
Theorem judgment_settles_its_pair cs1 c cs2 x :
  ahp_ratio_aij c = Some x →
  Forall (λ c', ¬ clash c c') cs2 →
  let cs := cs1 ++ c :: cs2 in
  let ids := item_ids cs in
  ∃ i j,
    ids !! i = Some (left c) ∧ ids !! j = Some (right c) ∧
    cell (buildMatrix ids cs) j i = Some (ndiv (nlit 1) x) ∧
    (left c ≠ right c → cell (buildMatrix ids cs) i j = Some x).
Proof.
  intros Hx Hcs2 cs ids.
  assert (c ∈ cs) as Hc by (unfold cs; rewrite elem_of_app, elem_of_cons; auto).
  destruct (indexOf_elem_of ids (left c)) as [i Hi].
  { apply elem_of_item_ids. exists c. auto. }
  destruct (indexOf_elem_of ids (right c)) as [j Hj].
  { apply elem_of_item_ids. exists c. auto. }
  exists i, j. split_and!; try by apply indexOf_Some.
  - unfold cs. rewrite (buildMatrix_last_on_pair ids cs1 c cs2 i j x) by done.
    by rewrite decide_True.
  - intros Hne. unfold cs.
    rewrite (buildMatrix_last_on_pair ids cs1 c cs2 i j x) by done.
    rewrite decide_False, decide_True; [done|done|].
    intros [-> _]. apply Hne. by eapply indexOf_inj.
Qed.

Lemma set_cell_twice {A} (matrix : list (list A)) i j v w :
  set_cell i j v (set_cell i j w matrix) = set_cell i j v matrix.
Proof.
  unfold set_cell. rewrite list_alter_alter_eq.
  apply list_alter_ext; [|done]. intros row _. simpl.
  apply list_insert_insert_eq.
Qed.

Lemma enter_overwrite ids (matrix : list (list (option num))) c' c :
  same_pair c' c → is_Some (ahp_ratio_aij c) →
  enter ids (enter ids matrix c') c = enter ids matrix c.
Proof.
  intros Hpair [x Hx]. unfold enter. rewrite Hx.
  destruct Hpair as [[-> ->]|[-> ->]].
  - destruct (indexOf ids (left c)) as [i|]; [|done].
    destruct (indexOf ids (right c)) as [j|]; [|done].
    destruct (ahp_ratio_aij c') as [x'|]; [|done].
    destruct (decide (i = j)) as [->|Hij]; [by rewrite !set_cell_twice|].
    rewrite (set_cell_commute _ i j _ j i) by congruence.
    by rewrite !set_cell_twice.
  - destruct (indexOf ids (left c)) as [i|];
      destruct (indexOf ids (right c)) as [j|]; try done.
    destruct (ahp_ratio_aij c') as [x'|]; [|done].
    destruct (decide (i = j)) as [->|Hij]; [by rewrite !set_cell_twice|].
    rewrite set_cell_twice.
    rewrite (set_cell_commute _ i j _ j i) by congruence.
    by rewrite set_cell_twice.
Qed.

(** X5: last write wins.  A judgment that is followed, after judgments on
    other pairs, by a judgment with a ratio on the same pair (in either
    direction) has no effect: the matrix is the one built without it. *)
Theorem later_judgment_overrides ids cs1 c' mid c cs2 :
  same_pair c' c → is_Some (ahp_ratio_aij c) →
  Forall (λ d, ¬ clash c' d) mid →
  buildMatrix ids (cs1 ++ c' :: mid ++ c :: cs2)
    = buildMatrix ids (cs1 ++ mid ++ c :: cs2).
Proof.
  intros Hpair Hc Hmid. unfold buildMatrix.
  rewrite !foldl_app. cbn [foldl]. rewrite !foldl_app. cbn [foldl].
  rewrite (entered_move_last ids _ c' mid) by done.
  by rewrite enter_overwrite.
Qed.

(** ** Groups *)


End Results.

(** ** Consistent judgments *)

Section ExactConsistent.
Local Open Scope R_scope.
Implicit Types (matrix : list (list R)) (weights : list R).















End ExactConsistent.

Section Fallback.
Context (approx : float → float → float).
Local Abbreviation host := (JSNumber.arith approx).

(** X9: in binary64, on every host, for every matrix, weight vector and
    [n]: [CR] is [CI / ri] with [ri] the table's entry for [3 <= n <= 16]
    and 1.5 for every other [n] (0, 1, 2 and above 16).  The branch of
    [ri > 0 ? CI / ri : 0] that gives 0 is never taken. *)
Theorem random_index_fallback (matrix : list (list float))
    (weights : list float) (n : nat) :
  let r := calculateCR (N := host) matrix weights n in
  cr_CR r =
    (cr_CI r /
       match RI (N := host) n with
       | Some ri => if (3 <=? n)%nat then ri else 1.5
       | None => 1.5
       end)%float.
Proof.
  do 17 (destruct n as [|n]; [reflexivity|]). reflexivity.
Qed.

End Fallback.

(** ** The sheets *)

Section SheetProofs.
Context `{N : Arith}.
Import Sheets.
Implicit Types (ss : workbook) (name : string).









Lemma or_blank_Number x y : or_blank x = Number y → ntruthy y = true.
Proof.
  unfold or_blank. destruct x as [x|]; [|done].
  destruct (ntruthy x) eqn:E; [|done]. by intros [= <-].
Qed.

(** X12: a row of the summary sheet has as many cells as the header (17),
    whichever groups the results lack, and none of its cells is a number
    that is falsy: by [x || ""] a CR or a weight that is 0 (or NaN) is
    written as the empty string. *)
Theorem summary_row_shape data results :
  length (summary_values data results) = length summary_headers ∧
  ∀ x, Number x ∈ summary_values data results → ntruthy x = true.
Proof.
  split; [done|]. intros x. unfold summary_values. cbv zeta.
  rewrite !elem_of_cons, elem_of_nil. unfold field, yes_no.
  intros Hx. repeat (destruct Hx as [Hx|Hx]; [|]);
    try done; try by (symmetry in Hx; eapply or_blank_Number).
Qed.



End SheetProofs.

Section Logs.
Context `{N : Arith}.


End Logs.

(** ** The further statements at concrete inputs *)

Lemma item_ids_same_items_witness :
  item_ids [judgment "A" "B" 2%float] = item_ids [judgment "B" "A" 3%float].
Proof.
  apply (item_ids_same_items (N := reference)).
  intros x. unfold named. split.
  - intros (c & ->%list_elem_of_singleton & Hx).
    exists (judgment "B" "A" 3%float).
    split; [by apply list_elem_of_singleton|]. simpl in *. tauto.
  - intros (c & ->%list_elem_of_singleton & Hx).
    exists (judgment "A" "B" 2%float).
    split; [by apply list_elem_of_singleton|]. simpl in *. tauto.
Defined.

Lemma judgment_settles_its_pair_witness :
  let cs := [judgment "B" "A" 4%float; judgment "A" "C" 1%float] in
  ∃ i j,
    item_ids cs !! i = Some "B"%string ∧ item_ids cs !! j = Some "A"%string ∧
    cell (buildMatrix (item_ids cs) cs) j i = Some (1 / 4)%float ∧
    ("B"%string ≠ "A"%string →
     cell (buildMatrix (item_ids cs) cs) i j = Some 4%float).
Proof.
  apply (judgment_settles_its_pair (N := reference) []
           (judgment "B" "A" 4%float) [judgment "A" "C" 1%float] 4%float).
  - reflexivity.
  - apply Forall_cons. split; [|apply Forall_nil_2].
    intros (_ & _ & [[[=] _]|[[=] _]]).
Defined.

Lemma later_judgment_overrides_witness :
  buildMatrix ["A"; "B"; "C"]
    [judgment "A" "B" 2%float; judgment "A" "C" 5%float;
     judgment "B" "A" 3%float]
  = buildMatrix ["A"; "B"; "C"]
      [judgment "A" "C" 5%float; judgment "B" "A" 3%float].
Proof.
  apply (later_judgment_overrides (N := reference) ["A"; "B"; "C"] []
           (judgment "A" "B" 2%float) [judgment "A" "C" 5%float]
           (judgment "B" "A" 3%float) []).
  - right. split; reflexivity.
  - eexists. reflexivity.
  - apply Forall_cons. split; [|apply Forall_nil_2].
    intros (_ & _ & [[_ [=]]|[[=] _]]).
Defined.




